(** * Capsera offline sync queue (src/utils/syncQueue.js, src/utils/idb.js)

    Shallow embedding of the sync-queue module of the Capsera client
    (the file shipped as [src/unnamed/part_002], lines 133-598) and of the
    IndexedDB helpers it calls ([src/service-worker.js], lines 596-890).

    Modelling choices:
    - the [syncQueue] object store (keyPath "id") is a [gmap] from the item
      id to the item; [getAll] lists it in the map's order.  Ids come from
      [crypto.randomUUID()], modelled by a counter of fresh natural numbers.
      The in-memory fallback array [syncQueueFallback] holds the same items
      under the same unique ids, so its [findIndex]/[splice] and
      [find]/[Object.assign] act as [delete]/[insert] by id;
    - the module runs in a window context (the [syncQueueProcessed] event is
      dispatched);
    - every IndexedDB request may fail ([storeFails]); the in-memory
      fallback never fails;
    - the remote calls [insertFinalProject] / [insertFeedback] resolve or
      reject with a message ([remote]); [Math.random()] is a stream of
      rationals ([random]); [Date.now()] is the millisecond clock [clock];
    - an [async] function is a computation in the state-and-error monad [M]:
      a rejection is [Throw], and, as in JavaScript, a rejection keeps the
      effects performed before it. *)

From Stdlib Require Import ZArith QArith Qround Qminmax Lia Lqa.
From stdpp Require Import base gmap list strings.

Open Scope Z_scope.

(** ** Values *)

Inductive js_error : Type :=
| StorageError                 (* a failed IndexedDB request *)
| ConstraintError              (* IDBObjectStore.add on an existing key *)
| RemoteError (msg : string)   (* rejection of a Supabase insert *)
| InvalidStateError.           (* IDBCursor method while the cursor iterates *)

Definition error_message (e : js_error) : string :=
  match e with
  | StorageError => "IndexedDB request failed"
  | ConstraintError => "Key already exists in the object store"
  | RemoteError m => m
  | InvalidStateError => "The cursor is being iterated"
  end.

Inductive result (A : Type) : Type :=
| Ok (a : A)
| Throw (e : js_error).
Arguments Ok {A} a.
Arguments Throw {A} e.

(** Payloads are opaque to the queue: the JSON text of the submission. *)
Definition Payload := string.

Record QueueItem := mkItem {
  id : nat;
  type : string;
  payload : Payload;
  createdAt : Z;
  retries : nat;
  nextAttemptAt : option Z;   (* None: field absent, undefined or null *)
  lastError : option string
}.

Record Summary := mkSummary {
  successCount : nat;
  failCount : nat;
  totalProcessed : nat
}.

(** Console messages that carry control information. *)
Inductive LogMsg : Type :=
| LogAlreadyProcessing        (* "Sync queue already being processed" *)
| LogOffline                  (* "Offline - skipping sync queue processing" *)
| LogQueueEmpty               (* "Sync queue is empty" *)
| LogUnknownType (k : nat)    (* "Unknown sync queue item type:" *)
| LogMaxRetries (k : nat)     (* "Max retries reached for queue item ..." *)
| LogStorageFailure.          (* console.error of a caught storage failure *)

Record Env := mkEnv {
  queue : gmap nat QueueItem;   (* the syncQueue store *)
  isProcessing : bool;          (* module-level [let isProcessing] *)
  onLine : bool;                (* navigator.onLine !== false *)
  clock : Z;                    (* Date.now() *)
  uuidNext : nat;               (* next crypto.randomUUID() *)
  randCount : nat;              (* Math.random() calls so far *)
  calls : list nat;             (* ids sent to Supabase, newest first *)
  outcomes : list (nat * bool); (* per-item results of drain passes *)
  events : list Summary;        (* syncQueueProcessed events, newest first *)
  logs : list LogMsg            (* console output, newest first *)
}.

Definition set_queue (q : gmap nat QueueItem) (s : Env) : Env :=
  mkEnv q (isProcessing s) (onLine s) (clock s) (uuidNext s) (randCount s)
    (calls s) (outcomes s) (events s) (logs s).
Definition set_isProcessing (b : bool) (s : Env) : Env :=
  mkEnv (queue s) b (onLine s) (clock s) (uuidNext s) (randCount s)
    (calls s) (outcomes s) (events s) (logs s).
Definition set_onLine (b : bool) (s : Env) : Env :=
  mkEnv (queue s) (isProcessing s) b (clock s) (uuidNext s) (randCount s)
    (calls s) (outcomes s) (events s) (logs s).
Definition set_clock (t : Z) (s : Env) : Env :=
  mkEnv (queue s) (isProcessing s) (onLine s) t (uuidNext s) (randCount s)
    (calls s) (outcomes s) (events s) (logs s).
Definition set_uuidNext (n : nat) (s : Env) : Env :=
  mkEnv (queue s) (isProcessing s) (onLine s) (clock s) n (randCount s)
    (calls s) (outcomes s) (events s) (logs s).
Definition set_randCount (n : nat) (s : Env) : Env :=
  mkEnv (queue s) (isProcessing s) (onLine s) (clock s) (uuidNext s) n
    (calls s) (outcomes s) (events s) (logs s).
Definition set_calls (l : list nat) (s : Env) : Env :=
  mkEnv (queue s) (isProcessing s) (onLine s) (clock s) (uuidNext s)
    (randCount s) l (outcomes s) (events s) (logs s).
Definition set_outcomes (l : list (nat * bool)) (s : Env) : Env :=
  mkEnv (queue s) (isProcessing s) (onLine s) (clock s) (uuidNext s)
    (randCount s) (calls s) l (events s) (logs s).
Definition set_events (l : list Summary) (s : Env) : Env :=
  mkEnv (queue s) (isProcessing s) (onLine s) (clock s) (uuidNext s)
    (randCount s) (calls s) (outcomes s) l (logs s).
Definition set_logs (l : list LogMsg) (s : Env) : Env :=
  mkEnv (queue s) (isProcessing s) (onLine s) (clock s) (uuidNext s)
    (randCount s) (calls s) (outcomes s) (events s) l.

(** The platform a call runs against. *)
Inductive StoreOp : Type :=
| OpAdd (k : nat) | OpGetAll | OpGet (k : nat) | OpPut (k : nat) | OpDelete (k : nat).

Record World := mkWorld {
  idbAvailable : bool;                        (* isIndexedDBAvailable() *)
  storeFails : StoreOp -> bool;               (* the request rejects *)
  remote : QueueItem -> nat -> option string; (* None: the insert resolves *)
  random : nat -> Q                           (* the n-th Math.random() *)
}.

(** ** The async monad *)

Definition M (A : Type) : Type := Env -> Env * result A.

Definition ret {A} (a : A) : M A := fun s => (s, Ok a).
Definition throw {A} (e : js_error) : M A := fun s => (s, Throw e).
Definition bind {A B} (m : M A) (k : A -> M B) : M B :=
  fun s => match m s with
           | (s', Ok a) => k a s'
           | (s', Throw e) => (s', Throw e)
           end.
Definition try_catch {A} (m : M A) (h : js_error -> M A) : M A :=
  fun s => match m s with
           | (s', Ok a) => (s', Ok a)
           | (s', Throw e) => h e s'
           end.
Definition try_finally {A} (m : M A) (fin : M unit) : M A :=
  fun s => match m s with
           | (s', r) => match fin s' with
                        | (s'', Ok _) => (s'', r)
                        | (s'', Throw e) => (s'', Throw e)
                        end
           end.
Definition get_env : M Env := fun s => (s, Ok s).
Definition modify (f : Env -> Env) : M unit := fun s => (f s, Ok tt).
Definition log (m : LogMsg) : M unit := modify (fun s => set_logs (m :: logs s) s).

Notation "'let*' x ':=' m 'in' k" := (bind m (fun x => k))
  (at level 200, x name, m at level 100, k at level 200).
Notation "m ;;; k" := (bind m (fun _ => k)) (at level 100, right associativity).

(** ** The module (syncQueue.js) and the IndexedDB helpers (idb.js) *)

Definition MAX_RETRIES : nat := 5.
Definition BASE_DELAY : Z := 1000.
Definition MAX_DELAY : Z := 30000.

Record Updates := mkUpdates {
  u_retries : nat;
  u_nextAttemptAt : option Z;
  u_lastError : option string
}.

(** [{ ...item, ...updates }] and [Object.assign(item, updates)]. *)
Definition apply_updates (it : QueueItem) (u : Updates) : QueueItem :=
  mkItem (id it) (type it) (payload it) (createdAt it)
    (u_retries u) (u_nextAttemptAt u) (u_lastError u).

Definition store_items (q : gmap nat QueueItem) : list QueueItem :=
  map snd (map_to_list q).

Section SyncQueue.
Context (w : World).

Definition idb_request {A} (op : StoreOp) (m : M A) : M A :=
  fun s => if storeFails w op then (s, Throw StorageError) else m s.

Definition date_now : M Z := fun s => (s, Ok (clock s)).
Definition math_random : M Q :=
  fun s => (set_randCount (S (randCount s)) s, Ok (random w (randCount s))).
Definition random_uuid : M nat :=
  fun s => (set_uuidNext (S (uuidNext s)) s, Ok (uuidNext s)).
Definition sleep (ms : Z) : M unit := modify (fun s => set_clock (clock s + ms) s).
Definition record_outcome (k : nat) (b : bool) : M unit :=
  modify (fun s => set_outcomes ((k, b) :: outcomes s) s).

(** idb.js: [addRecord], [getAllRecords], [getRecord], [putRecord] and
    [deleteRecord] on the "syncQueue" store. *)
Definition idb_add (it : QueueItem) : M unit :=
  idb_request (OpAdd (id it)) (fun s =>
    match queue s !! id it with
    | Some _ => (s, Throw ConstraintError)
    | None => (set_queue (<[id it := it]> (queue s)) s, Ok tt)
    end).
Definition idb_getAll : M (list QueueItem) :=
  idb_request OpGetAll (fun s => (s, Ok (store_items (queue s)))).
Definition idb_get (k : nat) : M (option QueueItem) :=
  idb_request (OpGet k) (fun s => (s, Ok (queue s !! k))).
Definition idb_put (it : QueueItem) : M unit :=
  idb_request (OpPut (id it))
    (modify (fun s => set_queue (<[id it := it]> (queue s)) s)).
Definition idb_delete (k : nat) : M unit :=
  idb_request (OpDelete k) (modify (fun s => set_queue (delete k (queue s)) s)).

Definition addToSyncQueue (ty : string) (pl : Payload) : M QueueItem :=
  let* k := random_uuid in
  let* now := date_now in
  let queueItem := mkItem k ty pl now 0 None None in
  idb_add queueItem ;;; ret queueItem.

Definition updateSyncQueueItem (k : nat) (u : Updates) : M (option QueueItem) :=
  let* item := idb_get k in
  match item with
  | None => ret None
  | Some it =>
      let updatedItem := apply_updates it u in
      idb_put updatedItem ;;; ret (Some updatedItem)
  end.

(** syncQueue.js *)
Definition enqueue (ty : string) (pl : Payload) : M QueueItem :=
  try_catch
    (if idbAvailable w then addToSyncQueue ty pl
     else
       let* k := random_uuid in
       let* now := date_now in
       let queueItem := mkItem k ty pl now 0 None None in
       modify (fun s => set_queue (<[k := queueItem]> (queue s)) s) ;;;
       ret queueItem)
    (fun e => log LogStorageFailure ;;; throw e).

Definition getQueueItems : M (list QueueItem) :=
  try_catch
    (if idbAvailable w then idb_getAll
     else fun s => (s, Ok (store_items (queue s))))
    (fun _ => log LogStorageFailure ;;; ret []).

(** The value returned (undefined, true or false) is never used. *)
Definition removeQueueItem (k : nat) : M unit :=
  try_catch
    (if idbAvailable w then idb_delete k
     else modify (fun s => set_queue (delete k (queue s)) s))
    (fun _ => log LogStorageFailure).

Definition updateQueueItem (k : nat) (u : Updates) : M (option QueueItem) :=
  try_catch
    (if idbAvailable w then updateSyncQueueItem k u
     else fun s =>
       match queue s !! k with
       | Some it =>
           let it' := apply_updates it u in
           (set_queue (<[k := it']> (queue s)) s, Ok (Some it'))
       | None => (s, Ok None)
       end)
    (fun _ => log LogStorageFailure ;;; ret None).

Definition getRetryDelay (retryCount : nat) (rnd : Q) : Q :=
  let delay := Qmin (inject_Z (BASE_DELAY * 2 ^ Z.of_nat retryCount))
                    (inject_Z MAX_DELAY) in
  let jitter := (rnd * (3 # 10) * delay)%Q in
  (delay + jitter)%Q.

(** [insertFinalProject(item.payload)] / [insertFeedback(item.payload)]. *)
Definition submit (it : QueueItem) : M unit :=
  fun s =>
    let s' := set_calls (id it :: calls s) s in
    match remote w it (length (calls s)) with
    | None => (s', Ok tt)
    | Some m => (s', Throw (RemoteError m))
    end.

Definition processQueueItem (item : QueueItem) : M bool :=
  try_catch
    (let* success :=
       (if String.eqb (type item) "finalSubmit" then submit item ;;; ret true
        else if String.eqb (type item) "feedback" then submit item ;;; ret true
        else log (LogUnknownType (id item)) ;;; ret true) in
     if success then removeQueueItem (id item) ;;; ret true
     else ret false)
    (fun error =>
       let newRetryCount := S (retries item) in
       if bool_decide (MAX_RETRIES <= newRetryCount)%nat then
         log (LogMaxRetries (id item)) ;;;
         removeQueueItem (id item) ;;; ret false
       else
         let* rnd := math_random in
         let nextAttemptDelay := getRetryDelay newRetryCount rnd in
         let* now := date_now in
         (* new Date(Date.now() + nextAttemptDelay): whole milliseconds *)
         let nextAttemptTime := Qfloor (inject_Z now + nextAttemptDelay)%Q in
         updateQueueItem (id item)
           (mkUpdates newRetryCount (Some nextAttemptTime)
              (Some (error_message error))) ;;;
         ret false).

(** [item.nextAttemptAt && new Date() < new Date(item.nextAttemptAt)] *)
Definition retry_delay_pending (item : QueueItem) (now : Z) : bool :=
  match nextAttemptAt item with
  | Some t => bool_decide (now < t)
  | None => false
  end.

(** The [for (const item of queueItems)] loop of [processSyncQueue]. *)
Fixpoint process_items (total : nat) (items : list QueueItem) (sc fc : nat)
  : M (nat * nat) :=
  match items with
  | [] => ret (sc, fc)
  | item :: rest =>
      let* now := date_now in
      if retry_delay_pending item now then process_items total rest sc fc
      else
        let* counts :=
          try_catch
            (let* success := processQueueItem item in
             record_outcome (id item) success ;;;
             (if bool_decide (1 < total)%nat then sleep 500 else ret tt) ;;;
             ret (if success then (S sc, fc) else (sc, S fc)))
            (fun _ => record_outcome (id item) false ;;; ret (sc, S fc)) in
        process_items total rest counts.1 counts.2
  end.

Definition processSyncQueue : M unit :=
  let* s := get_env in
  if isProcessing s then log LogAlreadyProcessing
  else if negb (onLine s) then log LogOffline
  else
    modify (set_isProcessing true) ;;;
    try_finally
      (try_catch
         (let* queueItems := getQueueItems in
          if bool_decide (length queueItems = 0%nat) then log LogQueueEmpty
          else
            let* counts := process_items (length queueItems) queueItems 0 0 in
            let sc := counts.1 in
            let fc := counts.2 in
            modify (fun s => set_events (mkSummary sc fc (sc + fc) :: events s) s))
         (fun _ => log LogStorageFailure))
      (modify (set_isProcessing false)).

Record Status := mkStatus {
  totalItems : nat;
  pendingItems : nat;
  failedItems : nat;
  readyToRetry : nat;
  status_isProcessing : bool;
  status_isOnline : bool
}.

Definition count_item (now : Z) (st : Status) (item : QueueItem) : Status :=
  if bool_decide (MAX_RETRIES <= retries item)%nat then
    mkStatus (totalItems st) (pendingItems st) (S (failedItems st))
      (readyToRetry st) (status_isProcessing st) (status_isOnline st)
  else if retry_delay_pending item now then
    mkStatus (totalItems st) (S (pendingItems st)) (failedItems st)
      (readyToRetry st) (status_isProcessing st) (status_isOnline st)
  else
    mkStatus (totalItems st) (pendingItems st) (failedItems st)
      (S (readyToRetry st)) (status_isProcessing st) (status_isOnline st).

Definition getSyncQueueStatus : M Status :=
  try_catch
    (let* queueItems := getQueueItems in
     let* s := get_env in
     let* now := date_now in
     ret (foldl (count_item now) 
            (mkStatus (length queueItems) 0 0 0 (isProcessing s) (onLine s))
            queueItems))
    (fun _ =>
       let* s := get_env in
       ret (mkStatus 0 0 0 0 false (onLine s))).

Fixpoint clear_failed_items (items : list QueueItem) (clearedCount : nat) : M nat :=
  match items with
  | [] => ret clearedCount
  | item :: rest =>
      if bool_decide (MAX_RETRIES <= retries item)%nat then
        removeQueueItem (id item) ;;; clear_failed_items rest (S clearedCount)
      else clear_failed_items rest clearedCount
  end.

Definition clearFailedQueueItems : M nat :=
  try_catch
    (let* queueItems := getQueueItems in clear_failed_items queueItems 0)
    (fun _ => ret 0%nat).

(** The drain started by [retryQueueItem] is not awaited; it runs to
    completion before any other operation of the model. *)
Definition retryQueueItem (itemId : nat) : M bool :=
  try_catch
    (let* updated := updateQueueItem itemId (mkUpdates 0 None None) in
     match updated with
     | Some _ =>
         let* s := get_env in
         (if onLine s then processSyncQueue else ret tt) ;;; ret true
     | None => ret false
     end)
    (fun _ => ret false).

End SyncQueue.

(** ** The cache purge (idb.js, [clearExpiredCache]) *)

Module Cache.

Record CacheEntry := mkEntry {
  key : string;
  data : string;
  ctype : string;
  entryCreatedAt : Z
}.

(** An [IDBCursorWithValue] over the "cache" store, per the IndexedDB
    specification: the records of the store, the cursor's current value,
    and its "got value" flag.  [continue()] clears the flag and queues the
    request that moves the cursor; that request completes only when the
    calling code yields to the event loop. *)
Record CursorState := mkCursorState {
  cs_store : list CacheEntry;
  cs_value : CacheEntry;
  cs_gotValue : bool
}.

(** [store.openCursor()]: null on an empty store. *)
Definition open_cursor (store : list CacheEntry) : option CursorState :=
  match store with
  | [] => None
  | e :: _ => Some (mkCursorState store e true)
  end.

(** [IDBCursor.delete()]: throws InvalidStateError unless the flag is set. *)
Definition cursor_delete (c : CursorState) : result CursorState :=
  if cs_gotValue c then
    Ok (mkCursorState
          (List.filter (fun e => negb (String.eqb (key e) (key (cs_value c)))) (cs_store c))
          (cs_value c) true)
  else Throw InvalidStateError.

(** [IDBCursor.continue()]: throws InvalidStateError unless the flag is set. *)
Definition cursor_continue (c : CursorState) : result CursorState :=
  if cs_gotValue c then Ok (mkCursorState (cs_store c) (cs_value c) false)
  else Throw InvalidStateError.

(** The body of [while (cursor) { ... }].  The binding [cursor] is a
    [const] and is never reassigned, and no [await] separates
    [cursor.continue()] from the next iteration's cursor call.  [fuel]
    bounds the number of iterations; [None] means the loop is still running.
    The result pairs the completion of [clearExpiredCache] with the store's
    records at that point. *)
Fixpoint clear_loop (fuel : nat) (cutoffTime : Z) (cursor : CursorState)
    (deletedCount : nat) : option (result nat * list CacheEntry) :=
  match fuel with
  | O => None
  | S fuel' =>
      let itemDate := entryCreatedAt (cs_value cursor) in
      let step :=
        if bool_decide (itemDate < cutoffTime) then
          match cursor_delete cursor with
          | Ok c => Ok (c, S deletedCount)
          | Throw e => Throw e
          end
        else Ok (cursor, deletedCount) in
      match step with
      | Throw e => Some (Throw e, cs_store cursor)
      | Ok (c, n) =>
          match cursor_continue c with
          | Throw e => Some (Throw e, cs_store c)
          | Ok c' => clear_loop fuel' cutoffTime c' n
          end
      end
  end.

Definition clearExpiredCache (fuel : nat) (now maxAgeMs : Z)
    (store : list CacheEntry) : option (result nat * list CacheEntry) :=
  let cutoffTime := now - maxAgeMs in
  match open_cursor store with
  | None => Some (Ok 0%nat, store)
  | Some cursor => clear_loop fuel cutoffTime cursor 0
  end.

(** What the spec describes: the entries older than the cutoff are removed
    and their number is returned. *)
Definition purge_spec (now maxAgeMs : Z) (store : list CacheEntry)
    : nat * list CacheEntry :=
  let cutoffTime := now - maxAgeMs in
  (length (List.filter (fun e => bool_decide (entryCreatedAt e < cutoffTime)) store),
   List.filter (fun e => negb (bool_decide (entryCreatedAt e < cutoffTime))) store).

End Cache.

(** ** Notions used by the proofs *)

(** The item types [processQueueItem] sends to Supabase. *)
Definition is_known (t : string) : bool :=
  String.eqb t "finalSubmit" || String.eqb t "feedback".

(** The store is keyed by the items' [id] (keyPath "id"). *)
Definition wf_store (q : gmap nat QueueItem) : Prop :=
  forall k it, q !! k = Some it -> id it = k.

(** How a drain pass may change one stored item. *)
Definition item_step (x y : QueueItem) : Prop :=
  id y = id x /\ type y = type x /\ (retries x <= retries y)%nat /\
  (is_known (type x) = false -> y = x).

Definition evolves (q q' : gmap nat QueueItem) : Prop :=
  forall k y, q' !! k = Some y -> exists x, q !! k = Some x /\ item_step x y.

Definition count_success (l : list (nat * bool)) : nat :=
  length (List.filter (fun p => p.2) l).
Definition count_failure (l : list (nat * bool)) : nat :=
  length (List.filter (fun p => negb p.2) l).

(** Successive [enqueue(type, payload)] calls. *)
Fixpoint enqueue_all (w : World) (ops : list (string * Payload)) (s : Env) : Env :=
  match ops with
  | [] => s
  | (ty, pl) :: rest => enqueue_all w rest (fst (enqueue w ty pl s))
  end.

(** A drain pass triggered [dt] milliseconds later. *)
Definition drain_later (w : World) (dt : Z) (s : Env) : Env :=
  fst (processSyncQueue w (set_clock (clock s + dt) s)).

Definition drains_later (w : World) (dts : list Z) (s : Env) : Env :=
  foldl (fun s dt => drain_later w dt s) s dts.

(** The module as loaded: empty store, no drain running. *)
Definition initial_env (online : bool) (t : Z) : Env :=
  mkEnv ∅ false online t 0 0 [] [] [] [].

(** The states the exported operations reach, under any platform
    behaviour, clock and connectivity. *)
Inductive reachable : Env -> Prop :=
| reach_init b t : reachable (initial_env b t)
| reach_enqueue w ty pl s : reachable s -> reachable (fst (enqueue w ty pl s))
| reach_drain w s : reachable s -> reachable (fst (processSyncQueue w s))
| reach_retry w k s : reachable s -> reachable (fst (retryQueueItem w k s))
| reach_clear w s : reachable s -> reachable (fst (clearFailedQueueItems w s))
| reach_status w s : reachable s -> reachable (fst (getSyncQueueStatus w s))
| reach_clock t s : reachable s -> reachable (set_clock t s)
| reach_network b s : reachable s -> reachable (set_onLine b s).

Definition queue_inv (s : Env) : Prop :=
  wf_store (queue s) /\
  (forall k x, queue s !! k = Some x ->
     (k < uuidNext s)%nat /\ (is_known (type x) = false -> nextAttemptAt x = None)) /\
  isProcessing s = false.

(** Concrete platforms and states. *)
Definition world_ok : World :=
  mkWorld true (fun _ => false) (fun _ _ => None) (fun _ => 0%Q).
Definition world_down : World :=
  mkWorld true (fun _ => false) (fun _ _ => Some "Failed to fetch") (fun _ => (1 # 2)%Q).
Definition world_unreadable : World :=
  mkWorld true (fun op => match op with OpGetAll => true | _ => false end)
    (fun _ _ => None) (fun _ => 0%Q).

Definition env_one (ty : string) : Env :=
  fst (enqueue world_ok ty "{}" (initial_env true 1000000)).

Definition demo_item : QueueItem :=
  mkItem 0 "feedback" "{}" 1000000 0 None None.
Definition demo_retried : QueueItem :=
  mkItem 0 "feedback" "{}" 1000000 1 (Some 1002300) (Some "Failed to fetch").
Definition demo_other : QueueItem :=
  mkItem 0 "other" "{}" 1000000 0 None None.
Definition demo_cache : list Cache.CacheEntry :=
  [Cache.mkEntry "ai:4f2a" "{}" "aiFeedback" 0].

(** ** Proofs *)

Lemma wf_delete q k : wf_store q -> wf_store (delete k q).
Proof. intros H j it Hj. apply lookup_delete_Some in Hj as [_ Hj]. exact (H j it Hj). Qed.
Lemma wf_insert q x : wf_store q -> wf_store (<[id x := x]> q).
Proof.
  intros H j it Hj. destruct (decide (j = id x)) as [->|Hne].
  - rewrite lookup_insert_eq in Hj. by simplify_eq.
  - rewrite lookup_insert_ne in Hj by congruence. by apply H.
Qed.
Lemma wf_insert_key q k x : id x = k -> wf_store q -> wf_store (<[k := x]> q).
Proof. intros <-. apply wf_insert. Qed.
Lemma item_step_update x u :
  is_known (type x) = true -> (retries x <= u_retries u)%nat ->
  item_step x (apply_updates x u).
Proof. intros Hk Hr. unfold item_step; simpl. repeat split; auto; congruence. Qed.
Lemma item_step_refl x : item_step x x.
Proof. unfold item_step. repeat split; auto. Qed.

Arguments getRetryDelay : simpl never.
Arguments Qfloor : simpl never.

Ltac unfold_m :=
  unfold processQueueItem, removeQueueItem, updateQueueItem,
    updateSyncQueueItem, idb_delete, idb_get, idb_put, idb_request, submit,
    math_random, date_now, log, modify, try_catch, bind, ret, throw in *.

Lemma pqi_frame w item s :
  wf_store (queue s) -> queue s !! id item = Some item ->
  match processQueueItem w item s with
  | (s', r) => (exists b, r = Ok b) /\ wf_store (queue s') /\
     (forall k, k <> id item -> queue s' !! k = queue s !! k) /\
     (forall y, queue s' !! id item = Some y -> item_step item y) /\
     uuidNext s' = uuidNext s /\ isProcessing s' = isProcessing s /\
     onLine s' = onLine s /\ events s' = events s /\ outcomes s' = outcomes s /\
     clock s' = clock s /\
     (calls s' = calls s \/ (calls s' = id item :: calls s /\ is_known (type item) = true))
  end.
Proof.
  intros Hwf Hit. unfold_m. unfold is_known.
  repeat (simpl; case_match); simplify_eq/=.
  all: repeat match goal with |- _ /\ _ => split end;
    try (eexists; reflexivity); try assumption; try (left; reflexivity);
    try (right; split; [reflexivity | unfold is_known; repeat match goal with H : (_ =? _)%string = _ |- _ => rewrite H; clear H end; reflexivity]);
    try (apply wf_delete; assumption); try (apply wf_insert_key; [reflexivity | assumption]);
    try (intros k Hk; rewrite ?lookup_delete_ne, ?lookup_insert_ne by congruence; reflexivity);
    try (intros y Hy; rewrite ?lookup_delete_eq, ?lookup_insert_eq in Hy; simplify_eq;
         try apply item_step_refl).
  all: try (apply item_step_update; simpl; [unfold is_known; repeat match goal with H : (_ =? _)%string = _ |- _ => rewrite H; clear H end; reflexivity | lia]).
Qed.

Lemma item_step_trans x y z : item_step x y -> item_step y z -> item_step x z.
Proof.
  unfold item_step. intros (H1 & H2 & H3 & H4) (G1 & G2 & G3 & G4).
  repeat split; try congruence; try lia.
  intros Hk. rewrite G4 by congruence. auto.
Qed.

Lemma pi_frame w total (l : list QueueItem) : forall sc fc s,
  wf_store (queue s) -> NoDup (map id l) ->
  Forall (fun x => queue s !! id x = Some x) l ->
  match process_items w total l sc fc s with
  | (s', r) =>
     (exists newo, outcomes s' = newo ++ outcomes s /\
        r = Ok ((sc + count_success newo)%nat, (fc + count_failure newo)%nat)) /\
     wf_store (queue s') /\
     (forall k, ~ In k (map id l) -> queue s' !! k = queue s !! k) /\
     (forall k y, queue s' !! k = Some y -> exists x, queue s !! k = Some x /\ item_step x y) /\
     uuidNext s' = uuidNext s /\ isProcessing s' = isProcessing s /\
     onLine s' = onLine s /\ events s' = events s /\
     (exists newc, calls s' = newc ++ calls s /\
        forall k, In k newc -> exists x, In x l /\ id x = k /\ is_known (type x) = true)
  end.
Proof.
  induction l as [|x l IH]; intros sc fc s Hwf Hnd Hall.
  - simpl. split_and!; eauto.
    + exists []. unfold count_success, count_failure; simpl.
      rewrite !Nat.add_0_r. auto.
    + intros k y Hy. exists y. split; [done | apply item_step_refl].
    + exists []. split; [done|]. intros k Hk. inversion Hk.
  - simpl in Hnd. apply NoDup_cons in Hnd as [Hx Hnd]. rewrite list_elem_of_In in Hx.
    apply Forall_cons in Hall as [Hxs Hall].
    simpl. unfold date_now, bind at 1.
    destruct (retry_delay_pending x (clock s)).
    + specialize (IH sc fc s Hwf Hnd Hall).
      destruct (process_items w total l sc fc s) as [s' r].
      destruct IH as (Ho & Hw & Hfr & Hev & Hu & Hp & Hon & He & (newc & Hc & Hin)).
      split_and!; auto.
      * exists newc. split; [done|]. intros k Hk.
        destruct (Hin k Hk) as (y & ? & ? & ?). exists y. simpl. auto.
    + pose proof (pqi_frame w x s Hwf Hxs) as Hq.
      destruct (processQueueItem w x s) as [s1 r1] eqn:E.
      destruct Hq as ([b ->] & Hw1 & Hfr1 & Hst1 & Hu1 & Hp1 & Hon1 & He1 & Ho1 & Hcl1 & Hc1).
      unfold try_catch, record_outcome, sleep, modify, ret, bind. rewrite E.
      assert (Hall1 : Forall (fun y => queue s1 !! id y = Some y) l).
      { rewrite List.Forall_forall in Hall |- *. intros y Hyl. pose proof (Hall y Hyl) as Hy.
        rewrite Hfr1; [exact Hy|]. intros Heq. apply Hx. rewrite <- Heq.
        apply in_map. exact Hyl. }
      assert (Hfin : forall s2 sc' fc',
        queue s2 = queue s1 -> uuidNext s2 = uuidNext s1 ->
        isProcessing s2 = isProcessing s1 -> onLine s2 = onLine s1 ->
        events s2 = events s1 -> calls s2 = calls s1 ->
        outcomes s2 = (id x, b) :: outcomes s1 ->
        sc' = (sc + count_success [(id x, b)])%nat ->
        fc' = (fc + count_failure [(id x, b)])%nat ->
        let (s', r) := process_items w total l sc' fc' s2 in
        (exists newo, outcomes s' = newo ++ outcomes s /\
           r = Ok ((sc + count_success newo)%nat, (fc + count_failure newo)%nat)) /\
        wf_store (queue s') /\
        (forall k, ~ In k (map id (x :: l)) -> queue s' !! k = queue s !! k) /\
        (forall k y, queue s' !! k = Some y -> exists x, queue s !! k = Some x /\ item_step x y) /\
        uuidNext s' = uuidNext s /\ isProcessing s' = isProcessing s /\
        onLine s' = onLine s /\ events s' = events s /\
        (exists newc, calls s' = newc ++ calls s /\
          forall k, In k newc -> exists x0, In x0 (x :: l) /\ id x0 = k /\ is_known (type x0) = true)).
      { intros s2 sc' fc' Hq2 Hu2 Hp2 Hon2 He2 Hc2 Ho2 -> ->.
        rewrite <- Hq2 in Hw1, Hall1.
        specialize (IH (sc + count_success [(id x, b)])%nat (fc + count_failure [(id x, b)])%nat
                       s2 Hw1 Hnd Hall1).
        destruct (process_items w total l _ _ s2) as [s' r].
        destruct IH as ((newo & Ho & ->) & Hw & Hfr & Hev & Hu & Hp & Hon & He & (newc & Hc & Hin)).
        split_and!.
        - exists (newo ++ [(id x, b)]). rewrite Ho, Ho2, Ho1, <- app_assoc. split; [done|].
          unfold count_success, count_failure. rewrite !List.filter_app, !length_app.
          do 2 f_equal; simpl; lia.
        - exact Hw.
        - intros k Hk. rewrite Hfr, Hq2, Hfr1; [done| |].
          + intros ->. apply Hk. left. reflexivity.
          + intros Hk'. apply Hk. right. exact Hk'.
        - intros k y Hy. destruct (Hev k y Hy) as (x' & Hx' & Hs'). rewrite Hq2 in Hx'.
          destruct (decide (k = id x)) as [->|Hne].
          + exists x. split; [exact Hxs|]. eapply item_step_trans; [apply Hst1; exact Hx'|exact Hs'].
          + exists x'. rewrite <- Hfr1 by exact Hne. split; [exact Hx'|exact Hs'].
        - congruence.
        - congruence.
        - congruence.
        - congruence.
        - destruct Hc1 as [Hc1 | [Hc1 Hkn]].
          + exists newc. rewrite Hc, Hc2, Hc1. split; [done|].
            intros k Hk. destruct (Hin k Hk) as (y & ? & ? & ?). exists y. simpl. auto.
          + exists (newc ++ [id x]). rewrite Hc, Hc2, Hc1, <- app_assoc. split; [done|].
            intros k Hk. apply in_app_or in Hk as [Hk | [<- | []]].
            * destruct (Hin k Hk) as (y & ? & ? & ?). exists y. simpl. auto.
            * exists x. simpl. auto. }
      destruct (bool_decide (1 < total)%nat), b; simpl; apply Hfin; try reflexivity;
        unfold count_success, count_failure; simpl; lia.
Qed.

Lemma store_items_props (q : gmap nat QueueItem) :
  wf_store q ->
  NoDup (map id (store_items q)) /\ Forall (fun x => q !! id x = Some x) (store_items q).
Proof.
  intros Hwf. unfold store_items. split.
  - rewrite List.map_map.
    rewrite (List.map_ext_in _ fst).
    + apply NoDup_fst_map_to_list.
    + intros [k x] Hin. apply list_elem_of_In, elem_of_map_to_list in Hin.
      simpl. exact (Hwf k x Hin).
  - apply List.Forall_forall. intros x Hin.
    apply List.in_map_iff in Hin as ([k x'] & <- & Hin).
    apply list_elem_of_In, elem_of_map_to_list in Hin. simpl.
    rewrite (Hwf k x' Hin). exact Hin.
Qed.


Lemma evolves_refl q : evolves q q.
Proof. intros k y Hy. exists y. split; [exact Hy | apply item_step_refl]. Qed.

Lemma evolves_trans q1 q2 q3 : evolves q1 q2 -> evolves q2 q3 -> evolves q1 q3.
Proof.
  intros H12 H23 k z Hz. destruct (H23 k z Hz) as (y & Hy & Hyz).
  destruct (H12 k y Hy) as (x & Hx & Hxy). exists x. split; [exact Hx|].
  eapply item_step_trans; eauto.
Qed.

Lemma getQueueItems_eq w s :
  getQueueItems w s =
  if idbAvailable w && storeFails w OpGetAll
  then (set_logs (LogStorageFailure :: logs s) s, Ok [])
  else (s, Ok (store_items (queue s))).
Proof.
  unfold getQueueItems, idb_getAll, idb_request, try_catch, log, modify, bind, ret.
  destruct (idbAvailable w), (storeFails w OpGetAll); reflexivity.
Qed.

Lemma drain_frame w s :
  wf_store (queue s) ->
  match processSyncQueue w s with
  | (s', r) =>
      r = Ok tt /\ wf_store (queue s') /\ evolves (queue s) (queue s') /\
      uuidNext s' = uuidNext s /\ onLine s' = onLine s /\
      (isProcessing s = false -> isProcessing s' = false)
  end.
Proof.
  intros Hwf. unfold processSyncQueue, get_env, bind at 1.
  destruct (isProcessing s) eqn:Hp.
  { unfold log, modify. simpl. split_and!; auto using evolves_refl. discriminate. }
  destruct (onLine s) eqn:Hon; simpl.
  2:{ unfold log, modify. simpl. split_and!; auto using evolves_refl. }
  unfold modify at 1, try_finally, try_catch, bind.
  rewrite getQueueItems_eq.
  destruct (idbAvailable w && storeFails w OpGetAll).
  { simpl. split_and!; auto using evolves_refl. }
  cbn [queue set_isProcessing].
  destruct (bool_decide (length (store_items (queue s)) = 0%nat)).
  { simpl. split_and!; auto using evolves_refl. }
  destruct (store_items_props (queue s) Hwf) as [Hnd Hall].
  pose proof (pi_frame w (length (store_items (queue s))) (store_items (queue s)) 0 0
                (set_isProcessing true s) Hwf Hnd Hall) as Hpi.
  destruct (process_items _ _ _ _ _ (set_isProcessing true s)) as [s2 r2].
  destruct Hpi as ((newo & _ & ->) & Hw2 & _ & Hev2 & Hu2 & _ & Hon2 & _).
  simpl. split_and!; auto; simpl in *; congruence.
Qed.

Lemma getRetryDelay_bounds (n : nat) (r : Q) :
  (1 <= n <= 4)%nat -> (0 <= r < 1)%Q ->
  (inject_Z (BASE_DELAY * 2 ^ Z.of_nat n) <= getRetryDelay n r <=
     inject_Z (BASE_DELAY * 2 ^ Z.of_nat n) * (13 # 10))%Q /\
  (getRetryDelay n r <= 20800)%Q.
Proof.
  intros Hn [Hr0 Hr1].
  destruct n as [|[|[|[|[|n]]]]]; try lia;
    unfold getRetryDelay; vm_compute Qmin; vm_compute inject_Z;
    refine (conj (conj _ _) _); lra.
Qed.

Lemma pqi_retry_update w item s s' r y :
  queue s !! id item = Some item ->
  processQueueItem w item s = (s', r) ->
  queue s' !! id item = Some y -> retries y = S (retries item) ->
  (S (retries item) < MAX_RETRIES)%nat /\
  nextAttemptAt y =
    Some (Qfloor (inject_Z (clock s) +
                  getRetryDelay (S (retries item)) (random w (randCount s)))).
Proof.
  intros Hit E Hy Hr. revert E. unfold_m.
  repeat (simpl; case_match); intros E; simplify_eq/=.
  all: try (exfalso; lia).
  all: try (rewrite lookup_delete_eq in Hy; discriminate).
  all: rewrite lookup_insert_eq in Hy; simplify_eq/=.
  all: match goal with H : bool_decide _ = false |- _ => apply bool_decide_eq_false in H end.
  all: split; [lia | reflexivity].
Qed.

Lemma try_finally_modify {A} (m : M A) f s :
  try_finally m (modify f) s = (f (fst (m s)), snd (m s)).
Proof. unfold try_finally, modify. destruct (m s). reflexivity. Qed.

Lemma try_catch_log_ok (m : M unit) msg s :
  snd (try_catch m (fun _ => log msg) s) = Ok tt.
Proof. unfold try_catch, log, modify. destruct (m s) as [s' [[]|e]]; reflexivity. Qed.

Lemma bind_modify {B} f (k : unit -> M B) s :
  bind (modify f) k s = k tt (f s).
Proof. reflexivity. Qed.

(** ** C3: backoff after a failed attempt *)

(** C3: when an attempt on [item] fails and leaves it stored with retry
    count [n] (one more than before), the delay computed for it lies between
    [BASE_DELAY * 2^n] and 1.3 times that, never exceeds [MAX_DELAY], and the
    item's [nextAttemptAt] is [Date.now() + delay] (as a Date, in whole
    milliseconds). *)
Theorem retry_backoff_delay_bounds (w : World) (item : QueueItem) (s s' : Env)
    (r : result bool) (y : QueueItem) :
  (forall k, 0 <= random w k < 1)%Q ->
  queue s !! id item = Some item ->
  processQueueItem w item s = (s', r) ->
  queue s' !! id item = Some y -> retries y = S (retries item) ->
  let n := retries y in
  let delay := getRetryDelay n (random w (randCount s)) in
  (inject_Z (BASE_DELAY * 2 ^ Z.of_nat n) <= delay <=
     inject_Z (BASE_DELAY * 2 ^ Z.of_nat n) * (13 # 10))%Q /\
  (delay <= inject_Z MAX_DELAY)%Q /\
  nextAttemptAt y = Some (Qfloor (inject_Z (clock s) + delay)).
Proof.
  intros Hrand Hit E Hy Hr n delay.
  destruct (pqi_retry_update w item s s' r y Hit E Hy Hr) as [Hlt Hnext].
  unfold MAX_RETRIES in Hlt.
  destruct (getRetryDelay_bounds n (random w (randCount s))) as [Hb Hmax];
    [unfold n; lia | apply Hrand |].
  split; [exact Hb|]. split.
  - unfold delay, MAX_DELAY. vm_compute inject_Z. lra.
  - unfold delay, n. rewrite Hnext, Hr. reflexivity.
Qed.

Lemma retry_backoff_delay_bounds_witness :
  let n := retries demo_retried in
  let delay := getRetryDelay n (random world_down (randCount (env_one "feedback"))) in
  (inject_Z (BASE_DELAY * 2 ^ Z.of_nat n) <= delay <=
     inject_Z (BASE_DELAY * 2 ^ Z.of_nat n) * (13 # 10))%Q /\
  (delay <= inject_Z MAX_DELAY)%Q /\
  nextAttemptAt demo_retried =
    Some (Qfloor (inject_Z (clock (env_one "feedback")) + delay)).
Proof.
  apply (retry_backoff_delay_bounds world_down demo_item (env_one "feedback")
           (fst (processQueueItem world_down demo_item (env_one "feedback")))
           (snd (processQueueItem world_down demo_item (env_one "feedback")))
           demo_retried).
  - intros k. simpl. lra.
  - vm_compute. reflexivity.
  - destruct (processQueueItem world_down demo_item (env_one "feedback")). reflexivity.
  - vm_compute. reflexivity.
  - reflexivity.
Defined.

(** ** C4: skipped drain calls *)

(** C4 (counterexample): [processSyncQueue] resolves to the same value
    (undefined) whether it skips or runs a pass, so no returned value marks
    a skipped call. *)
Lemma drain_result_has_no_skipped_signal :
  ~ (exists v : result unit, forall (w : World) (s : Env),
       snd (processSyncQueue w s) = v <-> (isProcessing s = true \/ onLine s = false)).
Proof.
  intros [v Hv].
  assert (Hoff : snd (processSyncQueue world_ok (initial_env false 0)) = v)
    by (apply Hv; right; reflexivity).
  assert (Hon : snd (processSyncQueue world_ok (initial_env true 0)) = v)
    by (rewrite <- Hoff; vm_compute; reflexivity).
  apply Hv in Hon. simpl in Hon. destruct Hon; discriminate.
Qed.

(** C4: a call made while a pass is in progress or while offline returns at
    once without error; apart from its console message it changes nothing:
    no adapter call, the store, every item, the guard and the events are
    left as they were, so no item is processed twice. *)
Theorem drain_skip_changes_nothing (w : World) (s : Env) :
  isProcessing s = true \/ onLine s = false ->
  processSyncQueue w s =
    (set_logs ((if isProcessing s then LogAlreadyProcessing else LogOffline) :: logs s) s,
     Ok tt).
Proof.
  intros H. unfold processSyncQueue, get_env, bind, log, modify.
  destruct (isProcessing s), (onLine s); simpl; try reflexivity.
  destruct H; discriminate.
Qed.

Lemma drain_skip_changes_nothing_witness :
  processSyncQueue world_ok (set_onLine false (env_one "feedback")) =
    (set_logs ((if isProcessing (set_onLine false (env_one "feedback"))
                then LogAlreadyProcessing else LogOffline)
                 :: logs (set_onLine false (env_one "feedback")))
       (set_onLine false (env_one "feedback")), Ok tt).
Proof.
  apply drain_skip_changes_nothing. right. reflexivity.
Defined.

(** ** C5: the single-flight guard *)

(** C5: a call that finds the guard free leaves it free when it completes,
    whatever the store, the remote calls and the items do. *)
Theorem drain_releases_guard (w : World) (s : Env) :
  isProcessing s = false -> isProcessing (fst (processSyncQueue w s)) = false.
Proof.
  intros H. unfold processSyncQueue, get_env, bind at 1. simpl.
  destruct (isProcessing s) eqn:Hp; [discriminate|].
  destruct (onLine s); simpl; [|exact Hp].
  unfold bind at 1, modify at 1, try_finally.
  destruct (try_catch _ _ _) as [s' r]. reflexivity.
Qed.

Lemma drain_releases_guard_witness :
  isProcessing (fst (processSyncQueue world_unreadable (env_one "feedback"))) = false.
Proof. apply drain_releases_guard. reflexivity. Defined.

(** ** C6: storage failures during a pass *)

(** C6 (counterexample): with the store unreadable, a pass over a non-empty
    queue resolves normally and leaves the store as it was. *)
Lemma drain_store_read_failure_resolves :
  store_items (queue (env_one "feedback")) <> [] /\
  snd (processSyncQueue world_unreadable (env_one "feedback")) = Ok tt /\
  queue (fst (processSyncQueue world_unreadable (env_one "feedback"))) =
    queue (env_one "feedback").
Proof.
  split; [vm_compute; discriminate|]. split; vm_compute; reflexivity.
Qed.

(** C6: [processSyncQueue] never rejects: every failure inside a pass is
    caught.  When the store cannot be read, [getQueueItems] yields an empty
    list and the pass ends as an empty-queue pass that only logs. *)
Theorem drain_never_rejects (w : World) (s : Env) :
  snd (processSyncQueue w s) = Ok tt /\
  (isProcessing s = false -> onLine s = true ->
   idbAvailable w = true -> storeFails w OpGetAll = true ->
   fst (processSyncQueue w s) =
     set_logs (LogQueueEmpty :: LogStorageFailure :: logs s) s).
Proof.
  split.
  - unfold processSyncQueue, get_env, bind at 1. simpl.
    destruct (isProcessing s); [reflexivity|].
    destruct (onLine s); simpl; [|reflexivity].
    rewrite bind_modify, try_finally_modify. apply try_catch_log_ok.
  - intros Hp Hon Hidb Hf.
    unfold processSyncQueue, get_env, bind at 1. simpl.
    destruct (isProcessing s) eqn:Hp'; [discriminate|].
    destruct (onLine s) eqn:Hon'; [|discriminate]. simpl.
    rewrite bind_modify, try_finally_modify. unfold try_catch, bind at 1.
    rewrite getQueueItems_eq, Hidb, Hf. simpl.
    destruct s; simpl in *; subst; reflexivity.
Qed.

Lemma drain_never_rejects_witness :
  snd (processSyncQueue world_unreadable (env_one "feedback")) = Ok tt /\
  fst (processSyncQueue world_unreadable (env_one "feedback")) =
    set_logs (LogQueueEmpty :: LogStorageFailure :: logs (env_one "feedback"))
      (env_one "feedback").
Proof.
  destruct (drain_never_rejects world_unreadable (env_one "feedback")) as [H1 H2].
  split; [exact H1|]. apply H2; reflexivity.
Defined.

(** ** C9: the cache purge *)

(** C9: on any non-empty cache store, [clearExpiredCache] rejects with an
    InvalidStateError during its second iteration, whatever the entries'
    ages, instead of returning the number of expired entries. *)
Theorem clearExpiredCache_rejects (fuel : nat) (now maxAgeMs : Z)
    (store : list Cache.CacheEntry) :
  (2 <= fuel)%nat -> store <> [] ->
  exists rest, Cache.clearExpiredCache fuel now maxAgeMs store =
               Some (Throw InvalidStateError, rest).
Proof.
  intros Hf Hs. destruct store as [|e rest]; [congruence|].
  destruct fuel as [|[|fuel]]; [lia|lia|].
  unfold Cache.clearExpiredCache, Cache.open_cursor. simpl.
  destruct (bool_decide (Cache.entryCreatedAt e < now - maxAgeMs)) eqn:E;
    simpl; rewrite ?E; simpl; eexists; reflexivity.
Qed.

Lemma clearExpiredCache_rejects_witness :
  exists rest, Cache.clearExpiredCache 10 100000000 86400000 demo_cache =
               Some (Throw InvalidStateError, rest).
Proof. apply clearExpiredCache_rejects; [lia | discriminate]. Defined.

(** ** Lemmas on enqueue, the drain loop and reachable states *)

Lemma enqueue_eq w ty pl s :
  queue s !! uuidNext s = None ->
  enqueue w ty pl s =
    (let it := mkItem (uuidNext s) ty pl (clock s) 0 None None in
     let s1 := set_uuidNext (S (uuidNext s)) s in
     if idbAvailable w && storeFails w (OpAdd (uuidNext s))
     then (set_logs (LogStorageFailure :: logs s1) s1, Throw StorageError)
     else (set_queue (<[uuidNext s := it]> (queue s1)) s1, Ok it)).
Proof.
  intros H. unfold enqueue, try_catch, addToSyncQueue, bind, random_uuid, date_now,
    idb_add, idb_request, ret, log, modify, throw.
  destruct (idbAvailable w); simpl; [|reflexivity].
  destruct (storeFails w _); simpl; [reflexivity|].
  destruct s; simpl in *. rewrite H. reflexivity.
Qed.

Lemma enqueue_all_ok w ops : forall s,
  (forall op, storeFails w op = false) -> wf_store (queue s) ->
  (forall k x, queue s !! k = Some x -> (k < uuidNext s)%nat /\ nextAttemptAt x = None) ->
  let s' := enqueue_all w ops s in
  wf_store (queue s') /\
  (forall k x, queue s' !! k = Some x -> (k < uuidNext s')%nat /\ nextAttemptAt x = None) /\
  size (queue s') = (size (queue s) + length ops)%nat /\
  isProcessing s' = isProcessing s /\ onLine s' = onLine s /\ events s' = events s.
Proof.
  induction ops as [|[ty pl] ops IH]; intros s Hf Hwf Hb; simpl.
  - split_and!; auto; lia.
  - assert (Hfresh : queue s !! uuidNext s = None).
    { destruct (queue s !! uuidNext s) eqn:E; [|reflexivity].
      destruct (Hb _ _ E). lia. }
    rewrite (enqueue_eq w ty pl s Hfresh), Hf, andb_false_r. simpl.
    destruct (IH (set_queue (<[uuidNext s := mkItem (uuidNext s) ty pl (clock s) 0 None None]>
                   (queue s)) (set_uuidNext (S (uuidNext s)) s)) Hf) as (H1 & H2 & H3 & H4 & H5 & H6).
    + simpl. apply wf_insert_key; [reflexivity | exact Hwf].
    + simpl. intros k x Hk. apply lookup_insert_Some in Hk as [[<- <-] | [Hne Hk]].
      * simpl. split; [lia | reflexivity].
      * destruct (Hb k x Hk). split; [lia | assumption].
    + split_and!; auto. rewrite H3. simpl. rewrite map_size_insert_None by exact Hfresh. lia.
Qed.

Lemma pqi_success w x s :
  (forall op, storeFails w op = false) -> (forall it n, remote w it n = None) ->
  let (s', r) := processQueueItem w x s in
  r = Ok true /\ queue s' = delete (id x) (queue s) /\
  events s' = events s /\ isProcessing s' = isProcessing s.
Proof.
  intros Hf Hr. unfold_m. rewrite ?Hr, ?Hf.
  repeat (simpl; case_match); simplify_eq/=; rewrite ?Hr, ?Hf in *; try discriminate;
    auto.
Qed.

Lemma pi_success w total (l : list QueueItem) : forall sc fc s,
  (forall op, storeFails w op = false) -> (forall it n, remote w it n = None) ->
  Forall (fun x => nextAttemptAt x = None) l ->
  let (s', r) := process_items w total l sc fc s in
  r = Ok ((sc + length l)%nat, fc) /\
  (forall k, In k (map id l) -> queue s' !! k = None) /\
  (forall k, ~ In k (map id l) -> queue s' !! k = queue s !! k) /\
  events s' = events s /\ isProcessing s' = isProcessing s.
Proof.
  induction l as [|x l IH]; intros sc fc s Hf Hr Hall; simpl.
  - split_and!; auto. + f_equal. f_equal. lia. + intros k [].
  - apply Forall_cons in Hall as [Hx Hall].
    unfold date_now, bind at 1. unfold retry_delay_pending at 1. rewrite Hx.
    pose proof (pqi_success w x s Hf Hr) as Hq.
    destruct (processQueueItem w x s) as [s1 r1] eqn:E.
    destruct Hq as (-> & Hq1 & He1 & Hp1).
    unfold try_catch, record_outcome, sleep, modify, ret, bind. rewrite E. simpl.
    destruct (bool_decide (1 < total)%nat); simpl;
    match goal with |- context [process_items w total l ?a ?b ?s2] =>
      specialize (IH a b s2 Hf Hr Hall); destruct (process_items w total l a b s2) as [s' r]
    end;
    destruct IH as (-> & Hin & Hout & He & Hp); simpl in *.
    all: split_and!; [f_equal; f_equal; lia | | | congruence | congruence].
    all: intros k Hk.
    + destruct (in_dec Nat.eq_dec k (map id l)) as [Hl|Hl]; [auto|].
      rewrite Hout by exact Hl. rewrite Hq1. destruct Hk as [<-|Hk]; [|contradiction].
      apply lookup_delete_eq.
    + rewrite Hout by tauto. rewrite Hq1. apply lookup_delete_ne. intros <-. apply Hk. left. reflexivity.
    + destruct (in_dec Nat.eq_dec k (map id l)) as [Hl|Hl]; [auto|].
      rewrite Hout by exact Hl. rewrite Hq1. destruct Hk as [<-|Hk]; [|contradiction].
      apply lookup_delete_eq.
    + rewrite Hout by tauto. rewrite Hq1. apply lookup_delete_ne. intros <-. apply Hk. left. reflexivity.
Qed.

Lemma store_items_in q k x : q !! k = Some x -> In x (store_items q).
Proof.
  intros H. unfold store_items. apply List.in_map_iff. exists (k, x). split; [reflexivity|].
  apply list_elem_of_In, elem_of_map_to_list. exact H.
Qed.

Lemma store_items_lookup q x : In x (store_items q) -> exists k, q !! k = Some x.
Proof.
  unfold store_items. intros Hin. apply List.in_map_iff in Hin as ([k x'] & <- & Hin).
  apply list_elem_of_In, elem_of_map_to_list in Hin. exists k. exact Hin.
Qed.

Lemma length_store_items q : length (store_items q) = size q.
Proof. unfold store_items. rewrite length_map. apply length_map_to_list. Qed.

Lemma drain_success_eq w s :
  (forall op, storeFails w op = false) -> (forall it n, remote w it n = None) ->
  wf_store (queue s) -> (forall k x, queue s !! k = Some x -> nextAttemptAt x = None) ->
  isProcessing s = false -> onLine s = true ->
  let s' := fst (processSyncQueue w s) in
  queue s' = ∅ /\
  events s' = (if bool_decide (size (queue s) = 0%nat) then events s
               else mkSummary (size (queue s)) 0 (size (queue s)) :: events s).
Proof.
  intros Hf Hr Hwf Hnext Hp Hon. cbv zeta.
  destruct (processSyncQueue w s) as [s' r] eqn:E. simpl. revert E.
  unfold processSyncQueue, get_env, bind at 1. simpl.
  destruct (isProcessing s) eqn:Hp'; [discriminate|].
  destruct (onLine s) eqn:Hon'; [|discriminate]. simpl.
  rewrite bind_modify, try_finally_modify. unfold try_catch, bind at 1.
  rewrite getQueueItems_eq, Hf, andb_false_r. simpl.
  rewrite length_store_items.
  destruct (bool_decide (size (queue s) = 0%nat)) eqn:Hz.
  - apply bool_decide_eq_true in Hz. apply map_size_empty_iff in Hz.
    simpl. intros E. injection E as <- <-. simpl. split; [exact Hz | reflexivity].
  - assert (Hall : Forall (fun x => nextAttemptAt x = None) (store_items (queue s))).
    { apply List.Forall_forall. intros x Hx. destruct (store_items_lookup _ _ Hx) as [k Hk].
      exact (Hnext k x Hk). }
    pose proof (pi_success w (size (queue s)) (store_items (queue s)) 0 0
                  (set_isProcessing true s) Hf Hr Hall) as Hpi.
    unfold bind, modify. destruct (process_items _ _ _ _ _ (set_isProcessing true s)) as [s2 r2].
    destruct Hpi as (-> & Hin & Hout & He & _). simpl.
    intros E. injection E as <- <-. simpl. split.
    + apply map_empty. intros k. cbn [queue set_isProcessing set_events].
      destruct (in_dec Nat.eq_dec k (map id (store_items (queue s)))) as [Hk|Hk]; [auto|].
      rewrite Hout by exact Hk. cbn [queue set_isProcessing].
      destruct (queue s !! k) as [x|] eqn:Hx; [|reflexivity].
      exfalso. apply Hk. rewrite <- (Hwf k x Hx). apply in_map. eapply store_items_in. exact Hx.
    + rewrite He. simpl. rewrite length_store_items. do 3 f_equal; lia.
Qed.



Lemma pqi_fail w x s :
  (forall op, storeFails w op = false) -> remote w x (length (calls s)) <> None ->
  is_known (type x) = true -> queue s !! id x = Some x ->
  let (s', r) := processQueueItem w x s in
  r = Ok false /\ isProcessing s' = isProcessing s /\ onLine s' = onLine s /\
  clock s' = clock s /\ events s' = events s /\
  (if bool_decide (MAX_RETRIES <= S (retries x))%nat
   then queue s' = delete (id x) (queue s) /\ In (LogMaxRetries (id x)) (logs s')
   else exists y, queue s' = <[id x := y]> (queue s) /\ id y = id x /\ type y = type x /\
        retries y = S (retries x) /\
        nextAttemptAt y = Some (Qfloor (inject_Z (clock s) +
                                        getRetryDelay (S (retries x)) (random w (randCount s))))).
Proof.
  intros Hf Hr Hk Hx. unfold is_known in Hk. unfold_m. rewrite ?Hf.
  repeat (simpl; case_match); simplify_eq/=; rewrite ?Hf in *; try discriminate;
    try congruence.
  all: split_and!; auto.
  all: try (left; reflexivity).
  all: try (eexists; split_and!; reflexivity).
Qed.

Lemma store_items_singleton k x : store_items {[k := x]} = [x].
Proof. unfold store_items. rewrite map_to_list_singleton. reflexivity. Qed.

Lemma drain_one_fail w s k x :
  (forall op, storeFails w op = false) -> (forall it n, remote w it n <> None) ->
  queue s = {[k := x]} -> id x = k -> is_known (type x) = true ->
  isProcessing s = false -> onLine s = true -> retry_delay_pending x (clock s) = false ->
  let s' := fst (processSyncQueue w s) in
  isProcessing s' = false /\ onLine s' = true /\ clock s' = clock s /\
  (if bool_decide (MAX_RETRIES <= S (retries x))%nat
   then queue s' = ∅ /\ In (LogMaxRetries k) (logs s')
   else exists y, queue s' = {[k := y]} /\ id y = k /\ type y = type x /\
        retries y = S (retries x) /\
        nextAttemptAt y = Some (Qfloor (inject_Z (clock s) +
                                        getRetryDelay (S (retries x)) (random w (randCount s))))).
Proof.
  intros Hf Hr Hq Hid Hk Hp Hon Hpend. cbv zeta.
  destruct (processSyncQueue w s) as [s' r] eqn:E. simpl. revert E.
  unfold processSyncQueue, get_env, bind at 1. simpl.
  destruct (isProcessing s) eqn:Hp'; [discriminate|].
  destruct (onLine s) eqn:Hon'; [|discriminate]. simpl.
  rewrite bind_modify, try_finally_modify. unfold try_catch, bind at 1.
  rewrite getQueueItems_eq, Hf, andb_false_r. simpl.
  rewrite Hq, store_items_singleton. simpl.
  unfold bind, date_now, try_catch, record_outcome, ret, modify.
  cbn -[processQueueItem retry_delay_pending]. rewrite Hpend.
  pose proof (pqi_fail w x (set_isProcessing true s) Hf (Hr _ _) Hk) as Hpq.
  simpl in Hpq. rewrite Hq, Hid, lookup_singleton_eq in Hpq. specialize (Hpq eq_refl).
  destruct (processQueueItem w x (set_isProcessing true s)) as [s1 r1].
  destruct Hpq as (-> & Hp1 & Hon1 & Hc1 & He1 & Hrest).
  simpl. intros E. injection E as <- <-. simpl.
  split_and!; try congruence.
  destruct (bool_decide _).
  - destruct Hrest as [Hq1 Hl]. rewrite Hq1, ?Hid, delete_singleton. split; [try (destruct (decide (k = k)); [|congruence]); reflexivity|]. exact Hl.
  - destruct Hrest as (y & Hq1 & Hy). exists y. rewrite Hq1, ?Hid, insert_singleton.
    split; [try (destruct (decide (k = k)); [|congruence]); reflexivity|]. rewrite ?Hid in Hy. exact Hy.
Qed.

Lemma next_attempt_within w c n k :
  (forall j, 0 <= random w j < 1)%Q -> (1 <= n <= 4)%nat ->
  Qfloor (inject_Z c + getRetryDelay n (random w k)) <= c + 20800.
Proof.
  intros Hr Hn. destruct (getRetryDelay_bounds n (random w k) Hn (Hr k)) as [_ Hd].
  pose proof (Qfloor_le (inject_Z c + getRetryDelay n (random w k))) as Hf.
  rewrite Zle_Qle, inject_Z_plus. change (inject_Z 20800) with 20800%Q. lra.
Qed.

Lemma drains_fail_chain w k n : forall s x,
  (forall op, storeFails w op = false) -> (forall it m, remote w it m <> None) ->
  (forall j, 0 <= random w j < 1)%Q ->
  queue s = {[k := x]} -> id x = k -> is_known (type x) = true ->
  isProcessing s = false -> onLine s = true ->
  (n + retries x = 4)%nat -> retry_delay_pending x (clock s) = false ->
  let s' := drains_later w (repeat 30000 n) (fst (processSyncQueue w s)) in
  queue s' = ∅ /\ In (LogMaxRetries k) (logs s') /\
  isProcessing s' = false /\ onLine s' = true.
Proof.
  induction n as [|n IH]; intros s x Hf Hr Hrand Hq Hid Hk Hp Hon Hn Hpend; cbv zeta.
  - destruct (drain_one_fail w s k x Hf Hr Hq Hid Hk Hp Hon Hpend) as (Hp1 & Hon1 & _ & Hrest).
    rewrite bool_decide_eq_true_2 in Hrest by (unfold MAX_RETRIES; lia).
    destruct Hrest as [Hq1 Hl]. simpl. auto.
  - destruct (drain_one_fail w s k x Hf Hr Hq Hid Hk Hp Hon Hpend) as (Hp1 & Hon1 & Hc1 & Hrest).
    rewrite bool_decide_eq_false_2 in Hrest by (unfold MAX_RETRIES; lia).
    destruct Hrest as (y & Hq1 & Hidy & Hty & Hry & Hny).
    simpl. unfold drain_later at 2.
    set (s1 := fst (processSyncQueue w s)) in *.
    apply (IH (set_clock (clock s1 + 30000) s1) y Hf Hr Hrand); simpl; auto.
    + congruence.
    + lia.
    + unfold retry_delay_pending. rewrite Hny.
      apply bool_decide_eq_false_2.
      pose proof (next_attempt_within w (clock s) (S (retries x)) (randCount s) Hrand) as Hw.
      lia.
Qed.

Lemma updateQueueItem_frame w k u s :
  wf_store (queue s) ->
  let (s', r) := updateQueueItem w k u s in
  (queue s' = queue s \/
   exists x, queue s !! k = Some x /\ queue s' = <[k := apply_updates x u]> (queue s)) /\
  uuidNext s' = uuidNext s /\ isProcessing s' = isProcessing s /\ onLine s' = onLine s.
Proof.
  intros Hwf. unfold_m.
  repeat (simpl; case_match); simplify_eq/=; split_and!; auto.
  all: try (right; eexists; split; [eassumption|]).
  all: try (match goal with H : queue _ !! _ = Some _ |- _ => rewrite (Hwf _ _ H) end; reflexivity).
  all: right; eexists; split; reflexivity.
Qed.

Lemma queue_inv_drain w s : queue_inv s -> queue_inv (fst (processSyncQueue w s)).
Proof.
  intros (Hwf & Hb & Hp). pose proof (drain_frame w s Hwf) as Hd.
  destruct (processSyncQueue w s) as [s' r]. simpl.
  destruct Hd as (_ & Hwf' & Hev & Hu & _ & Hp').
  split_and!; auto.
  intros k y Hy. destruct (Hev k y Hy) as (x & Hx & (Hid & Hty & _ & Hsame)).
  destruct (Hb k x Hx) as [Hlt Hn]. rewrite Hu. split; [exact Hlt|].
  intros Hk. rewrite Hsame by congruence. apply Hn. congruence.
Qed.

Lemma queue_inv_update w k u s :
  u_nextAttemptAt u = None -> queue_inv s -> queue_inv (fst (updateQueueItem w k u s)).
Proof.
  intros Hu (Hwf & Hb & Hp). pose proof (updateQueueItem_frame w k u s Hwf) as Hf.
  destruct (updateQueueItem w k u s) as [s' r]. simpl. unfold queue_inv.
  destruct Hf as ([Hq | (x & Hx & Hq)] & Hn & Hp' & _); rewrite Hq.
  - split_and!; [exact Hwf | | congruence]. rewrite Hn. exact Hb.
  - split_and!; [| | congruence].
    + apply wf_insert_key; [apply (Hwf k x Hx) | exact Hwf].
    + rewrite Hn. intros j y Hy. apply lookup_insert_Some in Hy as [[<- <-] | [_ Hy]].
      * split; [apply (Hb _ _ Hx) | intros _; exact Hu].
      * exact (Hb j y Hy).
Qed.

Lemma queue_inv_retry w k s : queue_inv s -> queue_inv (fst (retryQueueItem w k s)).
Proof.
  intros Hi. unfold retryQueueItem, try_catch, bind at 1.
  pose proof (queue_inv_update w k (mkUpdates 0 None None) s eq_refl Hi) as H1.
  destruct (updateQueueItem w k (mkUpdates 0 None None) s) as [s1 [[x|]|e]]; simpl in *.
  - unfold get_env, bind. destruct (onLine s1).
    + pose proof (queue_inv_drain w s1 H1) as H2.
      destruct (processSyncQueue w s1) as [s2 [[]|e]]; exact H2.
    + exact H1.
  - exact H1.
  - exact H1.
Qed.

Lemma removeQueueItem_eq w k s :
  removeQueueItem w k s =
  if idbAvailable w && storeFails w (OpDelete k)
  then (set_logs (LogStorageFailure :: logs s) s, Ok tt)
  else (set_queue (delete k (queue s)) s, Ok tt).
Proof.
  unfold removeQueueItem, idb_delete, idb_request, try_catch, log, modify.
  destruct (idbAvailable w), (storeFails w (OpDelete k)); reflexivity.
Qed.

Lemma clear_failed_items_frame w l : forall c s,
  let (s', r) := clear_failed_items w l c s in
  (exists n, r = Ok n) /\
  (forall k y, queue s' !! k = Some y -> queue s !! k = Some y) /\
  uuidNext s' = uuidNext s /\ isProcessing s' = isProcessing s /\ onLine s' = onLine s.
Proof.
  induction l as [|x l IH]; intros c s; simpl.
  - unfold ret. split_and!; eauto.
  - destruct (bool_decide _).
    + unfold bind. rewrite removeQueueItem_eq.
      destruct (idbAvailable w && storeFails w (OpDelete (id x))).
      * specialize (IH (S c) (set_logs (LogStorageFailure :: logs s) s)).
        destruct (clear_failed_items w l (S c) _) as [s' r]. exact IH.
      * specialize (IH (S c) (set_queue (delete (id x) (queue s)) s)).
        destruct (clear_failed_items w l (S c) _) as [s' r].
        destruct IH as (Hr & Hq & Hu & Hp & Ho). simpl in *. split_and!; auto.
        intros k y Hy. apply Hq in Hy. apply lookup_delete_Some in Hy as [_ Hy]. exact Hy.
    + apply IH.
Qed.

Lemma clearFailedQueueItems_frame w s :
  let (s', r) := clearFailedQueueItems w s in
  (exists n, r = Ok n) /\
  (forall k y, queue s' !! k = Some y -> queue s !! k = Some y) /\
  uuidNext s' = uuidNext s /\ isProcessing s' = isProcessing s /\ onLine s' = onLine s.
Proof.
  unfold clearFailedQueueItems, try_catch, bind. rewrite getQueueItems_eq.
  destruct (idbAvailable w && storeFails w OpGetAll).
  - simpl. unfold ret. simpl. split_and!; eauto.
  - pose proof (clear_failed_items_frame w (store_items (queue s)) 0 s) as H.
    destruct (clear_failed_items w _ 0 s) as [s' [n|e]]; simpl in *;
      destruct H as ([n' Hn] & H1 & H2 & H3 & H4); [|discriminate]; split_and!; eauto.
Qed.

Lemma queue_inv_clear w s : queue_inv s -> queue_inv (fst (clearFailedQueueItems w s)).
Proof.
  intros (Hwf & Hb & Hp). pose proof (clearFailedQueueItems_frame w s) as H.
  destruct (clearFailedQueueItems w s) as [s' r]. simpl.
  destruct H as (_ & Hq & Hu & Hp' & _). split_and!.
  - intros k y Hy. exact (Hwf k y (Hq k y Hy)).
  - rewrite Hu. intros k y Hy. exact (Hb k y (Hq k y Hy)).
  - congruence.
Qed.

Lemma getSyncQueueStatus_state w s :
  fst (getSyncQueueStatus w s) =
  if idbAvailable w && storeFails w OpGetAll
  then set_logs (LogStorageFailure :: logs s) s else s.
Proof.
  unfold getSyncQueueStatus, try_catch, bind, get_env, date_now, ret.
  rewrite getQueueItems_eq. destruct (idbAvailable w && storeFails w OpGetAll); reflexivity.
Qed.

Lemma queue_inv_enqueue w ty pl s : queue_inv s -> queue_inv (fst (enqueue w ty pl s)).
Proof.
  intros (Hwf & Hb & Hp).
  assert (Hfresh : queue s !! uuidNext s = None).
  { destruct (queue s !! uuidNext s) eqn:E; [|reflexivity]. destruct (Hb _ _ E). lia. }
  rewrite (enqueue_eq w ty pl s Hfresh).
  destruct (idbAvailable w && storeFails w (OpAdd (uuidNext s))); simpl.
  - unfold queue_inv. simpl. split_and!; auto. intros k x Hx. destruct (Hb k x Hx). split; [lia | auto].
  - unfold queue_inv. simpl. split_and!; auto.
    + apply wf_insert_key; [reflexivity | exact Hwf].
    + intros k x Hx. apply lookup_insert_Some in Hx as [[<- <-] | [_ Hx]].
      * simpl. split; [lia | reflexivity].
      * destruct (Hb k x Hx). split; [lia | auto].
Qed.

Lemma reachable_inv s : reachable s -> queue_inv s.
Proof.
  induction 1 as [b t | w ty pl s _ IH | w s _ IH | w k s _ IH | w s _ IH | w s _ IH
                 | t s _ IH | b s _ IH].
  - unfold queue_inv, initial_env; simpl. split_and!; [intros k x Hx | intros k x Hx | reflexivity];
      rewrite lookup_empty in Hx; discriminate.
  - apply queue_inv_enqueue, IH.
  - apply queue_inv_drain, IH.
  - apply queue_inv_retry, IH.
  - apply queue_inv_clear, IH.
  - rewrite getSyncQueueStatus_state.
    destruct (idbAvailable w && storeFails w OpGetAll); [|exact IH].
    destruct IH as (? & ? & ?). split_and!; auto.
  - destruct IH as (? & ? & ?). split_and!; auto.
  - destruct IH as (? & ? & ?). split_and!; auto.
Qed.

Lemma process_items_app w total l1 l2 : forall sc fc s,
  process_items w total (l1 ++ l2) sc fc s =
  match process_items w total l1 sc fc s with
  | (s1, Ok (a, b)) => process_items w total l2 a b s1
  | (s1, Throw e) => (s1, Throw e)
  end.
Proof.
  induction l1 as [|y l1 IH]; intros sc fc s; simpl.
  - reflexivity.
  - unfold bind, date_now. destruct (retry_delay_pending y (clock s)).
    + apply IH.
    + destruct (try_catch _ _ s) as [s1 [[a b]|e]]; [apply IH | reflexivity].
Qed.

Lemma pqi_unknown w x s :
  is_known (type x) = false -> storeFails w (OpDelete (id x)) = false ->
  let (s', r) := processQueueItem w x s in
  r = Ok true /\ queue s' = delete (id x) (queue s) /\ calls s' = calls s.
Proof.
  intros Hk Hd. unfold is_known in Hk. unfold_m. rewrite ?Hd.
  repeat (simpl; case_match); simplify_eq/=; rewrite ?Hd in *; try discriminate; auto.
  all: apply orb_false_iff in Hk as [? ?]; congruence.
Qed.

Lemma drain_unknown w s x :
  queue_inv s -> queue s !! id x = Some x -> is_known (type x) = false ->
  onLine s = true -> storeFails w OpGetAll = false -> storeFails w (OpDelete (id x)) = false ->
  let s' := fst (processSyncQueue w s) in
  queue s' !! id x = None /\
  (exists newc, calls s' = newc ++ calls s /\ ~ In (id x) newc) /\
  (exists newo, outcomes s' = newo ++ outcomes s /\ In (id x, true) newo /\
     events s' = mkSummary (count_success newo) (count_failure newo)
                   (count_success newo + count_failure newo) :: events s).
Proof.
  intros (Hwf & Hb & Hp) Hx Hk Hon Hga Hdel.
  assert (Hnx : nextAttemptAt x = None) by (apply (Hb _ _ Hx); exact Hk).
  cbv zeta. destruct (processSyncQueue w s) as [s' r] eqn:E. simpl. revert E.
  unfold processSyncQueue, get_env, bind at 1. simpl.
  destruct (isProcessing s) eqn:Hp'; [discriminate|].
  destruct (onLine s) eqn:Hon'; [|discriminate]. simpl.
  rewrite bind_modify, try_finally_modify. unfold try_catch, bind at 1.
  rewrite getQueueItems_eq, Hga, andb_false_r. simpl.
  destruct (store_items_props (queue s) Hwf) as [Hnd Hall].
  pose proof (store_items_in _ _ _ Hx) as HinL.
  set (L := store_items (queue s)) in *.
  rewrite bool_decide_eq_false_2 by (destruct L; [contradiction | discriminate]).
  set (total := length L).
  unfold bind at 1.
  destruct (in_split x L HinL) as (l1 & l2 & HL). rewrite HL.
  rewrite HL in Hnd, Hall. rewrite map_app in Hnd. simpl in Hnd.
  apply NoDup_app in Hnd as (Hnd1 & Hdisj & Hnd2).
  apply NoDup_cons in Hnd2 as [Hx2 Hnd2]. rewrite list_elem_of_In in Hx2.
  assert (Hx1 : ~ In (id x) (map id l1)).
  { intros Hin. apply (Hdisj (id x)); [apply list_elem_of_In; exact Hin | left]. }
  apply List.Forall_app in Hall as [Hall1 Hall2]. apply Forall_cons in Hall2 as [_ Hall2].
  (* items of [L] are the stored items: an item with the key of [x] is [x] *)
  assert (Huniq : forall y, In y (l1 ++ x :: l2) -> id y = id x -> y = x).
  { intros y Hy Hid. assert (Hy' : In y L) by (rewrite HL; exact Hy).
    destruct (store_items_lookup _ _ Hy') as [j Hj].
    rewrite <- (Hwf j y Hj), Hid, Hx in Hj. congruence. }
  rewrite process_items_app.
  pose proof (pi_frame w total l1 0 0 (set_isProcessing true s) Hwf Hnd1 Hall1) as H1.
  destruct (process_items w total l1 0 0 (set_isProcessing true s)) as [s2 r2].
  destruct H1 as ((newo1 & Ho1 & ->) & Hw2 & Hfr2 & _ & _ & _ & _ & He2 & (newc1 & Hc2 & Hcin1)).
  simpl in Ho1, He2, Hc2, Hfr2.
  assert (Hx2s : queue s2 !! id x = Some x) by (rewrite Hfr2 by exact Hx1; exact Hx).
  simpl. unfold bind at 1, date_now.
  unfold retry_delay_pending at 1. rewrite Hnx.
  pose proof (pqi_unknown w x s2 Hk Hdel) as Hu.
  pose proof (pqi_frame w x s2 Hw2 Hx2s) as Hq.
  unfold bind at 1, try_catch at 1, bind at 1.
  destruct (processQueueItem w x s2) as [s3 r3].
  destruct Hu as (-> & Hq3 & Hc3).
  destruct Hq as (_ & Hw3 & Hfr3 & _ & _ & _ & _ & He3 & Ho3 & _ & _).
  assert (Hall3 : Forall (fun y => queue s3 !! id y = Some y) l2).
  { apply List.Forall_forall. intros y Hy.
    rewrite Hfr3.
    - rewrite Hfr2.
      + exact (proj1 (List.Forall_forall _ _) Hall2 y Hy).
      + intros Hin. apply (Hdisj (id y)); [apply list_elem_of_In; exact Hin|].
        right. apply list_elem_of_In, in_map, Hy.
    - intros Hid. apply Hx2. rewrite <- Hid. apply in_map, Hy. }
  unfold record_outcome, modify, sleep, ret.
  destruct (bool_decide (1 < total)%nat); simpl;
  match goal with |- context [process_items w total l2 ?a ?b ?s4] =>
    pose proof (pi_frame w total l2 a b s4 Hw3 Hnd2 Hall3) as H4;
    destruct (process_items w total l2 a b s4) as [s5 r5]
  end;
  destruct H4 as ((newo2 & Ho5 & ->) & _ & Hfr5 & _ & _ & _ & _ & He5 & (newc2 & Hc5 & Hcin2));
  simpl in *; intros E; injection E as <- <-; simpl.
  all: split_and!.
  1, 4: rewrite Hfr5 by exact Hx2; simpl; rewrite Hq3; apply lookup_delete_eq.
  1, 3: exists (newc2 ++ newc1); rewrite Hc5, Hc3, Hc2, app_assoc; split; [reflexivity|];
        intros Hin; apply in_app_or in Hin as [Hin|Hin];
        [ destruct (Hcin2 _ Hin) as (y & Hy & Hid & Hky)
        | destruct (Hcin1 _ Hin) as (y & Hy & Hid & Hky) ];
        rewrite (Huniq y) in Hky by (auto using in_or_app, in_cons || (apply in_or_app; right; right; exact Hy)); congruence.
  all: exists (newo2 ++ (id x, true) :: newo1); split_and!;
        [ rewrite Ho5, Ho3, Ho1, <- app_assoc; reflexivity
        | apply in_or_app; right; left; reflexivity
        | rewrite He5, He3, He2; unfold count_success, count_failure;
          rewrite !List.filter_app, !length_app; simpl; f_equal; f_equal; lia ].
Qed.

(** ** C1: draining a freshly filled queue *)

(** C1: starting from an empty store, after any sequence of [enqueue] calls
    and one drain pass run online with storage and remote calls all
    succeeding, the store is empty; if at least one item was enqueued, the
    pass emits one summary whose success count is the number of items
    enqueued (no failures), while an empty queue emits no summary at all. *)
Theorem drain_after_enqueues_empties_queue (w : World) (ops : list (string * Payload)) (s0 : Env) :
  queue s0 = ∅ -> isProcessing s0 = false -> onLine s0 = true ->
  (forall op, storeFails w op = false) -> (forall it n, remote w it n = None) ->
  let s1 := enqueue_all w ops s0 in
  let s2 := fst (processSyncQueue w s1) in
  queue s2 = ∅ /\
  events s2 = (if bool_decide (ops = []) then events s0
               else mkSummary (length ops) 0 (length ops) :: events s0).
Proof.
  intros Hq Hp Hon Hf Hr s1 s2.
  destruct (enqueue_all_ok w ops s0 Hf) as (Hwf & Hb & Hsz & Hp1 & Hon1 & He1).
  { rewrite Hq. intros k x H. rewrite lookup_empty in H. discriminate. }
  { rewrite Hq. intros k x H. rewrite lookup_empty in H. discriminate. }
  fold s1 in Hwf, Hb, Hsz, Hp1, Hon1, He1.
  rewrite Hq, map_size_empty in Hsz. simpl in Hsz.
  destruct (drain_success_eq w s1 Hf Hr Hwf) as [H1 H2].
  { intros k x Hk. apply (Hb k x Hk). }
  { congruence. } { congruence. }
  split; [exact H1|]. fold s2 in H2. rewrite H2, Hsz, He1.
  destruct ops; reflexivity.
Qed.

Lemma drain_after_enqueues_empties_queue_witness :
  let s1 := enqueue_all world_ok [("feedback", "{}"); ("other", "{}")] (initial_env true 0) in
  let s2 := fst (processSyncQueue world_ok s1) in
  queue s2 = ∅ /\
  events s2 = (if bool_decide ([("feedback", "{}"); ("other", "{}")] = @nil (string * Payload))
               then events (initial_env true 0)
               else mkSummary (length [("feedback", "{}"); ("other", "{}")]) 0
                      (length [("feedback", "{}"); ("other", "{}")]) :: events (initial_env true 0)).
Proof.
  apply drain_after_enqueues_empties_queue; intros; reflexivity.
Defined.

(** C1 (counterexample): when nothing was enqueued the pass stops at the
    empty-queue check and reports no success count. *)
Lemma drain_empty_queue_reports_nothing :
  events (fst (processSyncQueue world_ok (enqueue_all world_ok [] (initial_env true 0)))) = [] /\
  logs (fst (processSyncQueue world_ok (enqueue_all world_ok [] (initial_env true 0)))) =
    [LogQueueEmpty].
Proof. split; vm_compute; reflexivity. Qed.

(** ** C2: exhausting the retries *)

(** C2: an item (as enqueued: retry count 0, no next attempt) whose remote
    call fails on five successive drain passes, 30 seconds apart, is removed
    after the fifth failure with only a console warning: the store is empty,
    and the status reports no items and no failed items. *)
Theorem exhausted_item_removed_uncounted (w : World) (s : Env) (k : nat) (x : QueueItem) :
  (forall op, storeFails w op = false) -> (forall it m, remote w it m <> None) ->
  (forall j, 0 <= random w j < 1)%Q ->
  queue s = {[k := x]} -> id x = k -> is_known (type x) = true ->
  retries x = 0%nat -> nextAttemptAt x = None ->
  isProcessing s = false -> onLine s = true ->
  let s5 := drains_later w [0; 30000; 30000; 30000; 30000] s in
  queue s5 = ∅ /\ In (LogMaxRetries k) (logs s5) /\
  snd (getSyncQueueStatus w s5) = Ok (mkStatus 0 0 0 0 false true).
Proof.
  intros Hf Hr Hrand Hq Hid Hk Hr0 Hn0 Hp Hon. cbv zeta.
  change (drains_later w [0; 30000; 30000; 30000; 30000] s)
    with (drains_later w (repeat 30000 4) (drain_later w 0 s)).
  unfold drain_later.
  destruct (drains_fail_chain w k 4 (set_clock (clock s + 0) s) x Hf Hr Hrand Hq Hid Hk Hp Hon
              ltac:(rewrite Hr0; reflexivity)
              ltac:(unfold retry_delay_pending; rewrite Hn0; reflexivity))
    as (Hq5 & Hl & Hp5 & Hon5).
  split_and!; [exact Hq5 | exact Hl |].
    unfold getSyncQueueStatus, try_catch, bind, get_env, date_now, ret.
    rewrite getQueueItems_eq, Hf, andb_false_r, Hq5. unfold store_items.
    rewrite map_to_list_empty, Hp5, Hon5. reflexivity.
Qed.

Lemma exhausted_item_removed_uncounted_witness :
  let s5 := drains_later world_down [0; 30000; 30000; 30000; 30000] (env_one "feedback") in
  queue s5 = ∅ /\ In (LogMaxRetries 0) (logs s5) /\
  snd (getSyncQueueStatus world_down s5) = Ok (mkStatus 0 0 0 0 false true).
Proof.
  apply (exhausted_item_removed_uncounted world_down (env_one "feedback") 0 demo_item).
  - intros; reflexivity.
  - intros; discriminate.
  - intros; simpl; lra.
  - vm_compute. reflexivity.
  - reflexivity.
  - reflexivity.
  - reflexivity.
  - reflexivity.
  - reflexivity.
  - reflexivity.
Defined.

(** C2 (counterexample): after the fifth failure the status reports
    [failedItems = 0]: the removed item is not counted anywhere. *)
Lemma exhausted_item_not_in_failedItems :
  snd (getSyncQueueStatus world_down
         (drains_later world_down [0; 30000; 30000; 30000; 30000] (env_one "feedback"))) =
    Ok (mkStatus 0 0 0 0 false true).
Proof. vm_compute. reflexivity. Qed.

(** ** C7: retry counts *)

(** C7: in every reachable state, enqueueing, a drain pass, clearing the
    failed items and reading the status never lower the retry count of an
    item that stays under the same key; only [retryQueueItem] resets it. *)
Theorem retries_monotone_except_manual_retry (w : World) (s : Env) (ty : string) (pl : Payload) :
  reachable s ->
  forall s', (s' = fst (enqueue w ty pl s) \/ s' = fst (processSyncQueue w s) \/
              s' = fst (clearFailedQueueItems w s) \/ s' = fst (getSyncQueueStatus w s)) ->
  forall k x y, queue s !! k = Some x -> queue s' !! k = Some y -> (retries x <= retries y)%nat.
Proof.
  intros Hr s' Hs' k x y Hx Hy. destruct (reachable_inv s Hr) as (Hwf & Hb & Hp).
  destruct Hs' as [-> | [-> | [-> | ->]]].
  - assert (Hfresh : queue s !! uuidNext s = None).
    { destruct (queue s !! uuidNext s) eqn:E; [|reflexivity]. destruct (Hb _ _ E). lia. }
    rewrite (enqueue_eq w ty pl s Hfresh) in Hy.
    destruct (idbAvailable w && storeFails w (OpAdd (uuidNext s))); simpl in Hy.
    + rewrite Hx in Hy. injection Hy as <-. lia.
    + destruct (Hb k x Hx) as [Hlt _].
      rewrite lookup_insert_ne in Hy by lia. rewrite Hx in Hy. injection Hy as <-. lia.
  - pose proof (drain_frame w s Hwf) as Hd.
    destruct (processSyncQueue w s) as [s1 r]. simpl in Hy.
    destruct Hd as (_ & _ & Hev & _).
    destruct (Hev k y Hy) as (x' & Hx' & (_ & _ & Hle & _)).
    rewrite Hx in Hx'. injection Hx' as <-. exact Hle.
  - pose proof (clearFailedQueueItems_frame w s) as Hc.
    destruct (clearFailedQueueItems w s) as [s1 r]. simpl in Hy.
    destruct Hc as (_ & Hq & _). apply Hq in Hy. rewrite Hx in Hy. injection Hy as <-. lia.
  - rewrite getSyncQueueStatus_state in Hy.
    destruct (idbAvailable w && storeFails w OpGetAll); simpl in Hy;
      rewrite Hx in Hy; injection Hy as <-; lia.
Qed.

Lemma retries_monotone_except_manual_retry_witness :
  (retries demo_item <= retries demo_retried)%nat.
Proof.
  apply (retries_monotone_except_manual_retry world_down (env_one "feedback") "feedback" "{}")
    with (s' := fst (processSyncQueue world_down (env_one "feedback"))) (k := 0%nat).
  - unfold env_one. apply reach_enqueue, reach_init.
  - right. left. reflexivity.
  - vm_compute. reflexivity.
  - vm_compute. reflexivity.
Defined.

(** C7 (counterexample): in a reachable state holding an item that failed
    once, [retryQueueItem] (offline, so no drain follows) sets its retry
    count back from 1 to 0. *)
Lemma retryQueueItem_resets_retries :
  reachable (set_onLine false (fst (processSyncQueue world_down (env_one "feedback")))) /\
  fmap retries (queue (set_onLine false (fst (processSyncQueue world_down (env_one "feedback"))))
                  !! 0%nat) = Some 1%nat /\
  fmap retries (queue (fst (retryQueueItem world_down 0
                  (set_onLine false (fst (processSyncQueue world_down (env_one "feedback"))))))
                  !! 0%nat) = Some 0%nat.
Proof.
  split; [apply reach_network, reach_drain; unfold env_one; apply reach_enqueue, reach_init|].
  split; vm_compute; reflexivity.
Qed.

(** ** C8: enqueue *)

(** C8: for every type and payload, with a fresh id, [enqueue] builds the
    item with retry count 0 and no next attempt, stores it under its id and
    returns it; it rejects (with the storage error) exactly when the
    IndexedDB [add] request fails, whatever the payload, and then leaves the
    store unchanged. *)
Theorem enqueue_persists_new_item (w : World) (ty : string) (pl : Payload) (s : Env) :
  queue s !! uuidNext s = None ->
  let it := mkItem (uuidNext s) ty pl (clock s) 0 None None in
  (retries it = 0%nat /\ nextAttemptAt it = None) /\
  (idbAvailable w && storeFails w (OpAdd (uuidNext s)) = false ->
     snd (enqueue w ty pl s) = Ok it /\
     queue (fst (enqueue w ty pl s)) = <[uuidNext s := it]> (queue s)) /\
  (idbAvailable w && storeFails w (OpAdd (uuidNext s)) = true ->
     snd (enqueue w ty pl s) = Throw StorageError /\
     queue (fst (enqueue w ty pl s)) = queue s).
Proof.
  intros Hfresh it. rewrite (enqueue_eq w ty pl s Hfresh).
  split; [split; reflexivity|].
  destruct (idbAvailable w && storeFails w (OpAdd (uuidNext s))); simpl;
    split; intros H; try discriminate; split; reflexivity.
Qed.

Lemma enqueue_persists_new_item_witness :
  let it := mkItem (uuidNext (initial_env true 0)) "feedback" "{}" (clock (initial_env true 0)) 0 None None in
  (retries it = 0%nat /\ nextAttemptAt it = None) /\
  (idbAvailable world_ok && storeFails world_ok (OpAdd (uuidNext (initial_env true 0))) = false ->
     snd (enqueue world_ok "feedback" "{}" (initial_env true 0)) = Ok it /\
     queue (fst (enqueue world_ok "feedback" "{}" (initial_env true 0))) =
       <[uuidNext (initial_env true 0) := it]> (queue (initial_env true 0))) /\
  (idbAvailable world_ok && storeFails world_ok (OpAdd (uuidNext (initial_env true 0))) = true ->
     snd (enqueue world_ok "feedback" "{}" (initial_env true 0)) = Throw StorageError /\
     queue (fst (enqueue world_ok "feedback" "{}" (initial_env true 0))) = queue (initial_env true 0)).
Proof. apply enqueue_persists_new_item. reflexivity. Defined.

(** ** C10: items of an unknown type *)

(** C10: in a reachable state, a drain pass run online removes every stored
    item whose type is neither "finalSubmit" nor "feedback" (when its delete
    request succeeds) without any remote call for it, records it as a
    success, and emits a summary counting it among the successes. *)
Theorem unknown_type_item_discarded (w : World) (s : Env) (x : QueueItem) :
  reachable s -> queue s !! id x = Some x -> is_known (type x) = false ->
  onLine s = true -> storeFails w OpGetAll = false -> storeFails w (OpDelete (id x)) = false ->
  let s' := fst (processSyncQueue w s) in
  queue s' !! id x = None /\
  (exists newc, calls s' = newc ++ calls s /\ ~ In (id x) newc) /\
  (exists newo, outcomes s' = newo ++ outcomes s /\ In (id x, true) newo /\
     events s' = mkSummary (count_success newo) (count_failure newo)
                   (count_success newo + count_failure newo) :: events s).
Proof.
  intros Hr. apply drain_unknown. apply reachable_inv, Hr.
Qed.

Lemma unknown_type_item_discarded_witness :
  queue (fst (processSyncQueue world_ok (env_one "other"))) !! id demo_other = None.
Proof.
  destruct (unknown_type_item_discarded world_ok (env_one "other") demo_other) as [H _].
  - unfold env_one. apply reach_enqueue, reach_init.
  - vm_compute. reflexivity.
  - reflexivity.
  - reflexivity.
  - reflexivity.
  - reflexivity.
  - exact H.
Defined.
